(** * LockFreeQueue: the single-producer, single-consumer ring buffer of
      app/src/main/jni/audio-decoder/queue.h

    The class template [LockFreeQueue<T, CAPACITY, INDEX_TYPE>] is embedded
    as functions over a record holding the backing array and the two
    counters.  Machine integers are values of [Z] with the conversions of
    C++ written out; arrays are lists with checked accesses; a call returns
    an [outcome], which is either a result or one of the ways in which the
    C++ program has no defined behaviour. *)

From Stdlib Require Import ZArith Bool Lia Znumtheory.
From stdpp Require Import base list.

Local Open Scope Z_scope.

(** ** Integer types *)

(** The unsigned types that can instantiate [INDEX_TYPE]. *)
Inductive index_type := U8 | U16 | U32 | U64.

Definition index_bits (ix : index_type) : Z :=
  match ix with U8 => 8 | U16 => 16 | U32 => 32 | U64 => 64 end.

Definition INT32_MAX : Z := 2147483647.

(** Conversion to [uint32_t]. *)
Definition to_u32 (z : Z) : Z := z mod 2 ^ 32.

(** ** Outcomes *)

Inductive fault :=
| BufferOutOfBounds   (* an access to [buffer] outside [0, CAPACITY) *)
| ItemsOutOfBounds    (* an access to the caller's array outside its bounds *)
| SignedOverflow.     (* [++idx] on an [int32_t] holding [INT32_MAX] *)

Inductive outcome (A : Type) :=
| Done (a : A)
| Undefined (f : fault)
| OutOfFuel.

Arguments Done {A} a.
Arguments Undefined {A} f.
Arguments OutOfFuel {A}.

(** ** Checked array accesses *)

Definition array_get {A} (l : list A) (i : Z) : option A :=
  if i <? 0 then None else l !! Z.to_nat i.

Definition array_set {A} (l : list A) (i : Z) (x : A) : option (list A) :=
  if (0 <=? i) && (i <? Z.of_nat (length l))
  then Some (<[Z.to_nat i := x]> l)
  else None.

(** ** The capacity check

    [static constexpr bool isPowerOfTwo(uint32_t n) { return (n & (n - 1)) == 0; }]
    The subtraction is done in [uint32_t], so [0 - 1] is [0xFFFFFFFF]. *)
Definition isPowerOfTwo (n : Z) : bool :=
  Z.land n (to_u32 (n - 1)) =? 0.

(** ** The queue *)

Record LockFreeQueue (T : Type) := mkQueue {
  buffer : list T;
  writeCounter : Z;
  readCounter : Z
}.

Arguments mkQueue {T} _ _ _.
Arguments buffer {T} _.
Arguments writeCounter {T} _.
Arguments readCounter {T} _.

Section Queue.

Context {T : Type}.
Variable ix : index_type.
Variable CAPACITY : Z.

(** Conversion to [INDEX_TYPE]. *)
Definition to_index (z : Z) : Z := z mod 2 ^ index_bits ix.

(** The common type of an [INDEX_TYPE] operand and a [uint32_t] operand is
    [uint32_t] unless [INDEX_TYPE] is wider. *)
Definition to_common (z : Z) : Z := z mod 2 ^ Z.max 32 (index_bits ix).

(** [a - b] on two [INDEX_TYPE] operands: types narrower than [int] are
    promoted to [int], where the difference is exact; the others wrap. *)
Definition index_sub (a b : Z) : Z :=
  if index_bits ix <? 32 then a - b else (a - b) mod 2 ^ index_bits ix.

(** A queue just constructed: both counters are zero and [buffer] holds
    [CAPACITY] elements that were never assigned. *)
Definition new_queue (junk : nat -> T) : LockFreeQueue T :=
  mkQueue (map junk (seq 0 (Z.to_nat CAPACITY))) 0 0.

(** [INDEX_TYPE size() const { return writeCounter - readCounter; }] *)
Definition size (q : LockFreeQueue T) : Z :=
  to_index (index_sub (writeCounter q) (readCounter q)).

(** [INDEX_TYPE mask(INDEX_TYPE n) const
      { return static_cast<INDEX_TYPE>(n & (CAPACITY - 1)); }] *)
Definition mask (n : Z) : Z :=
  to_index (Z.land n (to_u32 (CAPACITY - 1))).

(** The slot of the element [a] positions after counter value [c]. *)
Definition slot_of (c a : Z) : Z := mask (to_index (c + a)).

(** The loop of [pop_range]:
    [for (int32_t idx = 0; idx < length; ++idx) {
         items[idx] = buffer[mask(readCounter)];
         ++readCounter;
     }]
    [idx] is converted to [uint32_t] for the comparison. *)
Fixpoint pop_loop (fuel : nat) (len idx : Z) (items : list T)
    (q : LockFreeQueue T) : outcome (list T * LockFreeQueue T) :=
  if to_u32 idx <? len then
    match fuel with
    | O => OutOfFuel
    | S fuel' =>
      match array_get (buffer q) (mask (readCounter q)) with
      | None => Undefined BufferOutOfBounds
      | Some x =>
        match array_set items idx x with
        | None => Undefined ItemsOutOfBounds
        | Some items' =>
          let q' := mkQueue (buffer q) (writeCounter q)
                            (to_index (readCounter q + 1)) in
          if idx =? INT32_MAX then Undefined SignedOverflow
          else pop_loop fuel' len (idx + 1) items' q'
        end
      end
    end
  else Done (items, q).

(** [bool pop_range(T *items, uint32_t length)] *)
Definition pop_range (q : LockFreeQueue T) (items : list T) (len : Z)
    : outcome (bool * list T * LockFreeQueue T) :=
  if size q <? len then Done (false, items, q)
  else
    match pop_loop (Z.to_nat len) len 0 items q with
    | Done (items', q') => Done (true, items', q')
    | Undefined f => Undefined f
    | OutOfFuel => OutOfFuel
    end.

(** The loop of [push_range]:
    [for (int32_t idx = 0; idx < length; ++idx) {
         buffer[mask(writeCounter)] = items[idx];
         ++writeCounter;
     }] *)
Fixpoint push_loop (fuel : nat) (len idx : Z) (items : list T)
    (q : LockFreeQueue T) : outcome (LockFreeQueue T) :=
  if to_u32 idx <? len then
    match fuel with
    | O => OutOfFuel
    | S fuel' =>
      match array_get items idx with
      | None => Undefined ItemsOutOfBounds
      | Some x =>
        match array_set (buffer q) (mask (writeCounter q)) x with
        | None => Undefined BufferOutOfBounds
        | Some buffer' =>
          let q' := mkQueue buffer' (to_index (writeCounter q + 1))
                            (readCounter q) in
          if idx =? INT32_MAX then Undefined SignedOverflow
          else push_loop fuel' len (idx + 1) items q'
        end
      end
    end
  else Done q.

(** [bool push_range(T *items, uint32_t length)]; the sum [size() + length]
    is computed in the common type of its operands. *)
Definition push_range (q : LockFreeQueue T) (items : list T) (len : Z)
    : outcome (bool * LockFreeQueue T) :=
  if CAPACITY <? to_common (size q + len) then Done (false, q)
  else
    match push_loop (Z.to_nat len) len 0 items q with
    | Done q' => Done (true, q')
    | Undefined f => Undefined f
    | OutOfFuel => OutOfFuel
    end.

(** ** Sequences of calls *)

Inductive call :=
| Push (items : list T) (len : Z)
| Pop (items : list T) (len : Z).

(** The elements handed over by a call, in order. *)
Definition transferred (items : list T) (len : Z) : list T :=
  take (Z.to_nat len) items.

(** [run q calls pushed popped] makes the calls one after the other and
    records the elements accepted by the successful pushes and the elements
    delivered by the successful pops. *)
Fixpoint run (q : LockFreeQueue T) (calls : list call)
    (pushed popped : list T)
    : outcome (LockFreeQueue T * list T * list T) :=
  match calls with
  | [] => Done (q, pushed, popped)
  | Push items len :: calls' =>
    match push_range q items len with
    | Done (true, q') => run q' calls' (pushed ++ transferred items len) popped
    | Done (false, q') => run q' calls' pushed popped
    | Undefined f => Undefined f
    | OutOfFuel => OutOfFuel
    end
  | Pop items len :: calls' =>
    match pop_range q items len with
    | Done (true, items', q') =>
        run q' calls' pushed (popped ++ transferred items' len)
    | Done (false, _, q') => run q' calls' pushed popped
    | Undefined f => Undefined f
    | OutOfFuel => OutOfFuel
    end
  end.

(** ** State invariants *)

(** Both counters hold values of the index type. *)
Definition counters_ok (q : LockFreeQueue T) : Prop :=
  0 <= writeCounter q < 2 ^ index_bits ix /\
  0 <= readCounter q < 2 ^ index_bits ix.

(** The state invariant behind the bound on the occupancy. *)
Definition occupancy_ok (q : LockFreeQueue T) : Prop :=
  counters_ok q /\ size q <= CAPACITY.

(** The state of a queue that has accepted [pushed] and delivered [popped]:
    the counters are the wrapped images of the number of elements ever
    pushed and of the number [R] of elements ever popped, at most
    [CAPACITY] elements are in flight, and the [n]-th element pushed, while
    in flight, sits in slot [n mod CAPACITY]. *)
Definition fifo_inv (q : LockFreeQueue T) (pushed popped : list T) : Prop :=
  exists R : Z,
    0 <= R <= Z.of_nat (length pushed) /\
    Z.of_nat (length pushed) - R <= CAPACITY /\
    writeCounter q = to_index (Z.of_nat (length pushed)) /\
    readCounter q = to_index R /\
    Z.of_nat (length (buffer q)) = CAPACITY /\
    popped = take (Z.to_nat R) pushed /\
    forall n, R <= n < Z.of_nat (length pushed) ->
      buffer q !! Z.to_nat (n mod CAPACITY) = pushed !! Z.to_nat n.

End Queue.

Arguments Push {T} items len.
Arguments Pop {T} items len.

(** A sequence of calls on a queue of [Z] that pushes five elements and pops
    three, one hundred times over. *)
Definition wrap_calls : list (call (T:=Z)) :=
  concat (map (fun i : nat =>
                 let b := 5 * Z.of_nat i in
                 [Push [b; b + 1; b + 2; b + 3; b + 4] 5; Pop [0; 0; 0] 3])
              (seq 0 100)).

(** * Properties *)

(** ** Integer conversions *)

Lemma index_bits_pos ix : 0 < index_bits ix.
Proof. destruct ix; reflexivity. Qed.

Lemma index_modulus_pos ix : 0 < 2 ^ index_bits ix.
Proof. destruct ix; reflexivity. Qed.

Lemma to_index_range ix z : 0 <= to_index ix z < 2 ^ index_bits ix.
Proof. apply Z.mod_pos_bound, index_modulus_pos. Qed.

Lemma to_index_small ix z : 0 <= z < 2 ^ index_bits ix -> to_index ix z = z.
Proof. apply Z.mod_small. Qed.

Lemma to_index_add_l ix a b : to_index ix (to_index ix a + b) = to_index ix (a + b).
Proof. apply Zplus_mod_idemp_l. Qed.

Lemma size_eq {T} ix (q : LockFreeQueue T) :
  size ix q = (writeCounter q - readCounter q) mod 2 ^ index_bits ix.
Proof.
  unfold size, index_sub, to_index.
  destruct (index_bits ix <? 32); [reflexivity | apply Z.mod_mod].
  pose proof (index_modulus_pos ix). lia.
Qed.

Lemma size_range {T} ix (q : LockFreeQueue T) :
  0 <= size ix q < 2 ^ index_bits ix.
Proof. apply to_index_range. Qed.

Lemma size_of_wrapped {T} ix (q : LockFreeQueue T) P R :
  writeCounter q = to_index ix P ->
  readCounter q = to_index ix R ->
  0 <= P - R < 2 ^ index_bits ix ->
  size ix q = P - R.
Proof.
  intros Hw Hr Hfit.
  rewrite size_eq, Hw, Hr. unfold to_index.
  rewrite <- Zminus_mod. apply Z.mod_small, Hfit.
Qed.

(** C6. [size()] is the difference of the two counters modulo two to the
    width of the index type, whatever the counters hold; when the counters
    are the wrapped images of a number [P] of elements ever pushed and a
    number [R] of elements ever popped whose difference fits in the index
    type, it is exactly [P - R].  [size] is a function from the state to a
    number, so it leaves the state as it was. *)
Theorem size_is_modular_difference {T} ix (q : LockFreeQueue T) :
  size ix q = (writeCounter q - readCounter q) mod 2 ^ index_bits ix /\
  forall P R : Z,
    writeCounter q = to_index ix P ->
    readCounter q = to_index ix R ->
    0 <= P - R < 2 ^ index_bits ix ->
    size ix q = P - R.
Proof.
  split; [apply size_eq | apply size_of_wrapped].
Qed.

Lemma size_is_modular_difference_witness :
  size U8 (mkQueue [10; 20; 30; 40] 4 254) = 260 - 254.
Proof.
  apply (proj2 (size_is_modular_difference U8 (mkQueue [10; 20; 30; 40] 4 254))
               260 254); [reflexivity | reflexivity | simpl; lia].
Defined.

(** ** The capacity check *)

Lemma land_pred_pow2 k : 0 <= k -> Z.land (2 ^ k) (2 ^ k - 1) = 0.
Proof.
  intros Hk. replace (2 ^ k - 1) with (Z.ones k) by (rewrite Z.ones_equiv; lia).
  rewrite Z.land_ones by assumption. apply Z.mod_same.
  pose proof (Z.pow_pos_nonneg 2 k). lia.
Qed.

Lemma land_pred_not_pow2 n :
  0 < n -> n <> 2 ^ Z.log2 n -> Z.land n (n - 1) <> 0.
Proof.
  intros Hn Hne Hland.
  destruct (Z.log2_spec n Hn) as [Hlo Hhi].
  pose proof (Z.log2_nonneg n) as Hk.
  assert (Hlog : Z.log2 (n - 1) = Z.log2 n).
  { apply Z.log2_unique; [assumption |].
    rewrite <- Z.add_1_r in Hhi. lia. }
  assert (Hbit : Z.testbit (Z.land n (n - 1)) (Z.log2 n) = true).
  { rewrite Z.land_spec, Z.bit_log2 by assumption.
    rewrite <- Hlog. rewrite Z.bit_log2; [reflexivity | lia]. }
  rewrite Hland, Z.bits_0 in Hbit. discriminate.
Qed.

(** X1. What [isPowerOfTwo] accepts among the values of [uint32_t]: zero
    and the powers of two, and nothing else. *)
Lemma isPowerOfTwo_spec n :
  0 <= n < 2 ^ 32 ->
  isPowerOfTwo n = true <-> n = 0 \/ exists k, 0 <= k < 32 /\ n = 2 ^ k.
Proof.
  intros Hn. unfold isPowerOfTwo. rewrite Z.eqb_eq.
  destruct (Z.eq_dec n 0) as [-> | Hn0].
  { split; [now left | reflexivity]. }
  unfold to_u32. rewrite (Z.mod_small (n - 1)) by lia.
  split.
  - intros Hland. right. exists (Z.log2 n).
    destruct (Z.eq_dec n (2 ^ Z.log2 n)) as [Heq | Hne].
    + split; [| assumption]. split; [apply Z.log2_nonneg |].
      apply Z.log2_lt_pow2; lia.
    + exfalso. apply (land_pred_not_pow2 n); [lia | assumption | assumption].
  - intros [? | (k & Hk & ->)]; [contradiction |].
    apply land_pred_pow2. lia.
Qed.

(** C8 (the input at which the check and the claim part).
    [isPowerOfTwo(0)] is [true]: [0 - 1] wraps to [0xFFFFFFFF] and
    [0 & 0xFFFFFFFF] is [0], so the [static_assert] lets a capacity of zero
    through although zero is not a power of two. *)
Theorem isPowerOfTwo_zero_accepted : isPowerOfTwo 0 = true.
Proof. reflexivity. Qed.


(** ** One iteration of the copy loops *)

Section LoopEquations.

Context {T : Type}.
Variable ix : index_type.
Variable CAPACITY : Z.

Implicit Types (q : LockFreeQueue T) (items : list T) (len idx : Z).

Lemma to_u32_small z : 0 <= z < 2 ^ 32 -> to_u32 z = z.
Proof. apply Z.mod_small. Qed.

Lemma to_u32_idx idx : 0 <= idx <= INT32_MAX -> to_u32 idx = idx.
Proof. unfold INT32_MAX. intros H. apply to_u32_small. lia. Qed.

Lemma pop_loop_eq fuel len idx items q :
  pop_loop ix CAPACITY fuel len idx items q =
  if to_u32 idx <? len then
    match fuel with
    | O => OutOfFuel
    | S fuel' =>
      match array_get (buffer q) (mask ix CAPACITY (readCounter q)) with
      | None => Undefined BufferOutOfBounds
      | Some x =>
        match array_set items idx x with
        | None => Undefined ItemsOutOfBounds
        | Some items' =>
          if idx =? INT32_MAX then Undefined SignedOverflow
          else pop_loop ix CAPACITY fuel' len (idx + 1) items'
                 (mkQueue (buffer q) (writeCounter q)
                          (to_index ix (readCounter q + 1)))
        end
      end
    end
  else Done (items, q).
Proof. destruct fuel; reflexivity. Qed.

Lemma push_loop_eq fuel len idx items q :
  push_loop ix CAPACITY fuel len idx items q =
  if to_u32 idx <? len then
    match fuel with
    | O => OutOfFuel
    | S fuel' =>
      match array_get items idx with
      | None => Undefined ItemsOutOfBounds
      | Some x =>
        match array_set (buffer q) (mask ix CAPACITY (writeCounter q)) x with
        | None => Undefined BufferOutOfBounds
        | Some buffer' =>
          if idx =? INT32_MAX then Undefined SignedOverflow
          else push_loop ix CAPACITY fuel' len (idx + 1) items
                 (mkQueue buffer' (to_index ix (writeCounter q + 1))
                          (readCounter q))
        end
      end
    end
  else Done q.
Proof. destruct fuel; reflexivity. Qed.

(** A loop whose bound is not above its counter does nothing. *)
Lemma pop_loop_nop fuel len idx items q :
  len <= to_u32 idx -> pop_loop ix CAPACITY fuel len idx items q = Done (items, q).
Proof.
  intros H. rewrite pop_loop_eq.
  destruct (Z.ltb_spec (to_u32 idx) len); [lia | reflexivity].
Qed.

Lemma push_loop_nop fuel len idx items q :
  len <= to_u32 idx -> push_loop ix CAPACITY fuel len idx items q = Done q.
Proof.
  intros H. rewrite push_loop_eq.
  destruct (Z.ltb_spec (to_u32 idx) len); [lia | reflexivity].
Qed.

End LoopEquations.

(** Opens one iteration of a loop that is known to have finished. *)
Ltac open_iteration H :=
  match type of H with
  | pop_loop _ _ ?fuel _ _ _ _ = _ =>
      rewrite pop_loop_eq in H
  | push_loop _ _ ?fuel _ _ _ _ = _ =>
      rewrite push_loop_eq in H
  end;
  repeat match type of H with
  | (if ?c then _ else _) = _ => destruct c eqn:?
  | match ?fuel with O => _ | S _ => _ end = _ => destruct fuel
  | match ?o with Some _ => _ | None => _ end = _ => destruct o eqn:?
  end;
  try discriminate H.

Section Loops.

Context {T : Type}.
Variable ix : index_type.
Variable CAPACITY : Z.

Implicit Types (q : LockFreeQueue T) (items : list T) (len idx : Z).

(** *** What the loops leave alone *)

Lemma pop_loop_frame fuel len idx items q items' q' :
  pop_loop ix CAPACITY fuel len idx items q = Done (items', q') ->
  buffer q' = buffer q /\ writeCounter q' = writeCounter q.
Proof.
  revert idx items q. induction fuel as [| fuel IH]; intros idx items q H.
  - open_iteration H. injection H as _ ->. split; reflexivity.
  - open_iteration H.
    + apply IH in H. exact H.
    + injection H as _ ->. split; reflexivity.
Qed.

Lemma push_loop_frame fuel len idx items q q' :
  push_loop ix CAPACITY fuel len idx items q = Done q' ->
  readCounter q' = readCounter q.
Proof.
  revert idx q. induction fuel as [| fuel IH]; intros idx q H.
  - open_iteration H. injection H as ->. reflexivity.
  - open_iteration H.
    + apply IH in H. exact H.
    + injection H as ->. reflexivity.
Qed.

Lemma pop_range_done q items len b items' q' :
  pop_range ix CAPACITY q items len = Done (b, items', q') ->
  (b = false /\ size ix q < len /\ items' = items /\ q' = q) \/
  (b = true /\ len <= size ix q /\
   pop_loop ix CAPACITY (Z.to_nat len) len 0 items q = Done (items', q')).
Proof.
  unfold pop_range. destruct (Z.ltb_spec (size ix q) len) as [Hlt | Hge].
  - intros [= <- <- <-]. left. auto.
  - destruct (pop_loop _ _ _ _ _ _ _) as [[i1 q1] | |]; try discriminate.
    intros [= <- <- <-]. right. auto.
Qed.

Lemma push_range_done q items len b q' :
  push_range ix CAPACITY q items len = Done (b, q') ->
  (b = false /\ CAPACITY < to_common ix (size ix q + len) /\ q' = q) \/
  (b = true /\ to_common ix (size ix q + len) <= CAPACITY /\
   push_loop ix CAPACITY (Z.to_nat len) len 0 items q = Done q').
Proof.
  unfold push_range.
  destruct (Z.ltb_spec CAPACITY (to_common ix (size ix q + len))) as [Hlt | Hge].
  - intros [= <- <-]. left. auto.
  - destruct (push_loop _ _ _ _ _ _ _) as [q1 | |]; try discriminate.
    intros [= <- <-]. right. auto.
Qed.

(** *** Counts that the loop counter cannot reach *)

Lemma pop_loop_overflows fuel len idx items q :
  0 <= idx <= INT32_MAX -> INT32_MAX < len ->
  INT32_MAX - idx < Z.of_nat fuel ->
  exists f, pop_loop ix CAPACITY fuel len idx items q = Undefined f.
Proof.
  revert idx items q.
  induction fuel as [| fuel IH]; intros idx items q Hidx Hlen Hfuel; [lia |].
  rewrite pop_loop_eq, (to_u32_idx idx Hidx).
  destruct (Z.ltb_spec idx len); [| lia].
  destruct (array_get _ _); [| eauto].
  destruct (array_set _ _ _); [| eauto].
  destruct (Z.eqb_spec idx INT32_MAX); [eauto |].
  apply IH; lia.
Qed.

Lemma push_loop_overflows fuel len idx items q :
  0 <= idx <= INT32_MAX -> INT32_MAX < len ->
  INT32_MAX - idx < Z.of_nat fuel ->
  exists f, push_loop ix CAPACITY fuel len idx items q = Undefined f.
Proof.
  revert idx q.
  induction fuel as [| fuel IH]; intros idx q Hidx Hlen Hfuel; [lia |].
  rewrite push_loop_eq, (to_u32_idx idx Hidx).
  destruct (Z.ltb_spec idx len); [| lia].
  destruct (array_get _ _); [| eauto].
  destruct (array_set _ _ _); [| eauto].
  destruct (Z.eqb_spec idx INT32_MAX); [eauto |].
  apply IH; lia.
Qed.

Lemma pop_range_overflows q items len :
  INT32_MAX < len -> len <= size ix q ->
  exists f, pop_range ix CAPACITY q items len = Undefined f.
Proof.
  intros Hlen Hsize. unfold pop_range.
  destruct (Z.ltb_spec (size ix q) len); [lia |].
  destruct (pop_loop_overflows (Z.to_nat len) len 0 items q) as [f ->];
    [unfold INT32_MAX; lia | assumption | unfold INT32_MAX in *; lia |].
  exists f. reflexivity.
Qed.

Lemma push_range_overflows q items len :
  INT32_MAX < len -> to_common ix (size ix q + len) <= CAPACITY ->
  exists f, push_range ix CAPACITY q items len = Undefined f.
Proof.
  intros Hlen Hsize. unfold push_range.
  destruct (Z.ltb_spec CAPACITY (to_common ix (size ix q + len))); [lia |].
  destruct (push_loop_overflows (Z.to_nat len) len 0 items q) as [f ->];
    [unfold INT32_MAX; lia | assumption | unfold INT32_MAX in *; lia |].
  exists f. reflexivity.
Qed.

End Loops.

(** ** Single calls *)

Section Calls.

Context {T : Type}.
Variable ix : index_type.
Variable CAPACITY : Z.

Implicit Types (q : LockFreeQueue T) (items : list T) (len idx : Z).

(** C3. [pop_range] returns [false] exactly when the count exceeds
    [size()], and a call that returns [false] hands back the destination
    array and the queue (so the read counter and [size()]) as they were. *)
Theorem pop_range_fails_iff q items len :
  (pop_range ix CAPACITY q items len = Done (false, items, q) <->
   size ix q < len) /\
  (forall items' q',
     pop_range ix CAPACITY q items len = Done (false, items', q') ->
     items' = items /\ q' = q /\
     readCounter q' = readCounter q /\ size ix q' = size ix q).
Proof.
  split; [split |].
  - intros H. apply pop_range_done in H as [(_ & H & _) | (H & _)];
      [assumption | discriminate].
  - intros H. unfold pop_range.
    destruct (Z.ltb_spec (size ix q) len); [reflexivity | lia].
  - intros items' q' H.
    apply pop_range_done in H as [(_ & _ & -> & ->) | (H & _)];
      [auto | discriminate].
Qed.

(** C9. A call to [push_range] that returns leaves the read counter as it
    was; a call to [pop_range] that returns leaves the write counter and
    every slot of the backing array as they were. *)
Theorem calls_leave_the_other_side_alone q items len :
  (forall b q',
     push_range ix CAPACITY q items len = Done (b, q') ->
     readCounter q' = readCounter q) /\
  (forall b items' q',
     pop_range ix CAPACITY q items len = Done (b, items', q') ->
     writeCounter q' = writeCounter q /\ buffer q' = buffer q).
Proof.
  split.
  - intros b q' H.
    apply push_range_done in H as [(_ & _ & ->) | (_ & _ & H)];
      [reflexivity |].
    apply push_loop_frame in H. exact H.
  - intros b items' q' H.
    apply pop_range_done in H as [(_ & _ & _ & ->) | (_ & _ & H)];
      [split; reflexivity |].
    apply pop_loop_frame in H. destruct H. split; assumption.
Qed.

(** C5 (the counts at which the code and the claim part).  A count above
    [INT32_MAX] that passes the check of [pop_range] or of [push_range]
    drives the [int32_t] loop counter to [INT32_MAX] and increments it
    there, unless an array access has gone out of bounds before: the call
    has no defined result. *)
Theorem counts_above_INT32_MAX_are_undefined q items len :
  INT32_MAX < len ->
  (len <= size ix q ->
   exists f, pop_range ix CAPACITY q items len = Undefined f) /\
  (to_common ix (size ix q + len) <= CAPACITY ->
   exists f, push_range ix CAPACITY q items len = Undefined f).
Proof.
  intros Hlen. split; intros H.
  - apply pop_range_overflows; assumption.
  - apply push_range_overflows; assumption.
Qed.

End Calls.

Lemma pop_range_fails_iff_witness :
  pop_range U8 8 (mkQueue [1; 2; 3; 4; 5; 6; 7; 8] 2 0) [0; 0; 0] 3
  = Done (false, [0; 0; 0], mkQueue [1; 2; 3; 4; 5; 6; 7; 8] 2 0).
Proof.
  apply (proj1 (pop_range_fails_iff U8 8
                  (mkQueue [1; 2; 3; 4; 5; 6; 7; 8] 2 0) [0; 0; 0] 3)).
  vm_compute. reflexivity.
Defined.

Lemma calls_leave_the_other_side_alone_witness :
  readCounter (mkQueue [1; 2; 3; 4; 5; 6; 7; 8] 8 1) = 1 /\
  writeCounter (mkQueue [1; 2; 3; 4; 5; 6; 0; 0] 6 3) = 6 /\
  buffer (mkQueue [1; 2; 3; 4; 5; 6; 0; 0] 6 3) = [1; 2; 3; 4; 5; 6; 0; 0].
Proof.
  split.
  - apply (proj1 (calls_leave_the_other_side_alone U8 8
                    (mkQueue [1; 2; 3; 4; 5; 6; 0; 0] 6 1) [7; 8] 2)
                 true (mkQueue [1; 2; 3; 4; 5; 6; 7; 8] 8 1)).
    vm_compute. reflexivity.
  - apply (proj2 (calls_leave_the_other_side_alone U8 8
                    (mkQueue [1; 2; 3; 4; 5; 6; 0; 0] 6 1) [0; 0] 2)
                 true [2; 3] (mkQueue [1; 2; 3; 4; 5; 6; 0; 0] 6 3)).
    vm_compute. reflexivity.
Defined.

Lemma counts_above_INT32_MAX_are_undefined_witness :
  exists f,
    pop_range U32 2147483648 (mkQueue [1; 2] 2147483648 0) [0; 0] 2147483648
    = Undefined f.
Proof.
  apply (proj1 (counts_above_INT32_MAX_are_undefined U32 2147483648
                  (mkQueue [1; 2] 2147483648 0) [0; 0] 2147483648
                  ltac:(reflexivity))).
  vm_compute. discriminate.
Defined.

(** ** Array accesses *)

Lemma array_get_Some {A} (l : list A) i x :
  array_get l i = Some x ->
  0 <= i < Z.of_nat (length l) /\ l !! Z.to_nat i = Some x.
Proof.
  unfold array_get. destruct (Z.ltb_spec i 0); [discriminate |].
  intros Hx. split; [| exact Hx].
  apply lookup_lt_Some in Hx. lia.
Qed.

Lemma array_get_None {A} (l : list A) i :
  array_get l i = None -> ~ 0 <= i < Z.of_nat (length l).
Proof.
  unfold array_get. destruct (Z.ltb_spec i 0); [lia |].
  intros Hx. apply lookup_ge_None in Hx. lia.
Qed.

Lemma array_set_Some {A} (l l' : list A) i x :
  array_set l i x = Some l' ->
  0 <= i < Z.of_nat (length l) /\ l' = <[Z.to_nat i := x]> l.
Proof.
  unfold array_set.
  destruct (Z.leb_spec 0 i); destruct (Z.ltb_spec i (Z.of_nat (length l)));
    simpl; try discriminate.
  intros [= <-]. split; [lia | reflexivity].
Qed.

Lemma array_set_None {A} (l : list A) i x :
  array_set l i x = None -> ~ 0 <= i < Z.of_nat (length l).
Proof.
  unfold array_set.
  destruct (Z.leb_spec 0 i); destruct (Z.ltb_spec i (Z.of_nat (length l)));
    simpl; try discriminate; lia.
Qed.

(** ** The loops, iteration by iteration *)

Section LoopResults.

Context {T : Type}.
Variable ix : index_type.
Variable CAPACITY : Z.

Implicit Types (q : LockFreeQueue T) (items : list T) (len idx : Z).

Lemma mask_nonneg n : 0 <= mask ix CAPACITY n.
Proof. apply to_index_range. Qed.

Lemma slot_of_0 c : 0 <= c < 2 ^ index_bits ix -> slot_of ix CAPACITY c 0 = mask ix CAPACITY c.
Proof.
  intros Hc. unfold slot_of. rewrite Z.add_0_r, to_index_small; auto.
Qed.

Lemma slot_of_succ c a :
  slot_of ix CAPACITY (to_index ix (c + 1)) a = slot_of ix CAPACITY c (a + 1).
Proof.
  unfold slot_of. rewrite to_index_add_l. do 2 f_equal. lia.
Qed.

(** A finished run of the loop of [push_range] from [idx]: the counter of
    the loop stayed below [INT32_MAX], [items] was long enough, the write
    counter advanced by the number of iterations, the slots that were not
    assigned kept their contents, and if the assigned slots are pairwise
    distinct each holds the element of [items] that was copied to it. *)
Lemma push_loop_done_spec fuel len idx items q q' :
  0 <= idx <= INT32_MAX -> idx <= len ->
  0 <= writeCounter q < 2 ^ index_bits ix ->
  push_loop ix CAPACITY fuel len idx items q = Done q' ->
  len <= INT32_MAX /\
  writeCounter q' = to_index ix (writeCounter q + (len - idx)) /\
  length (buffer q') = length (buffer q) /\
  (idx < len -> len <= Z.of_nat (length items)) /\
  (forall s : nat,
     (forall j, idx <= j < len ->
        Z.of_nat s <> slot_of ix CAPACITY (writeCounter q) (j - idx)) ->
     buffer q' !! s = buffer q !! s) /\
  ((forall a b, 0 <= a < b -> b < len - idx ->
      slot_of ix CAPACITY (writeCounter q) a
      <> slot_of ix CAPACITY (writeCounter q) b) ->
   forall j, idx <= j < len ->
     buffer q' !! Z.to_nat (slot_of ix CAPACITY (writeCounter q) (j - idx))
     = items !! Z.to_nat j).
Proof.
  revert idx q.
  induction fuel as [| fuel IH]; intros idx q Hidx Hle Hw H.
  - open_iteration H. injection H as ->.
    rewrite (to_u32_idx idx Hidx) in *.
    assert (len = idx) as -> by lia.
    repeat split; try lia; try (intros; lia);
      rewrite Z.sub_diag, Z.add_0_r, to_index_small; auto.
  - rewrite push_loop_eq, (to_u32_idx idx Hidx) in H.
    destruct (Z.ltb_spec idx len) as [Hlt | Hge].
    2:{ injection H as ->. assert (len = idx) as -> by lia.
        repeat split; try lia; try (intros; lia);
          rewrite Z.sub_diag, Z.add_0_r, to_index_small; auto. }
    destruct (array_get items idx) as [x |] eqn:Hget; [| discriminate].
    destruct (array_set _ _ _) as [buffer' |] eqn:Hset; [| discriminate].
    destruct (Z.eqb_spec idx INT32_MAX) as [| Hne]; [discriminate |].
    apply array_get_Some in Hget as [Hib Hx].
    apply array_set_Some in Hset as [Hsb ->].
    apply IH in H as (H1 & H2 & H3 & H4 & H5 & H6); simpl in *;
      [| lia | lia | apply to_index_range].
    rewrite length_insert in H3.
    assert (Hs0 : slot_of ix CAPACITY (writeCounter q) 0
                  = mask ix CAPACITY (writeCounter q))
      by (apply slot_of_0; assumption).
    assert (Hkeep : forall s : nat,
      (forall j, idx + 1 <= j < len ->
         Z.of_nat s <> slot_of ix CAPACITY (writeCounter q) (j - idx)) ->
      buffer q' !! s = <[Z.to_nat (mask ix CAPACITY (writeCounter q)) := x]>
                         (buffer q) !! s).
    { intros s Hs. apply H5. intros j Hj.
      rewrite slot_of_succ. replace (j - (idx + 1) + 1) with (j - idx) by lia.
      apply Hs. lia. }
    split; [assumption |]. split.
    { rewrite H2, to_index_add_l. f_equal. lia. }
    split; [assumption |]. split; [lia |]. split.
    + intros s Hs. rewrite Hkeep by (intros; apply Hs; lia).
      apply list_lookup_insert_ne.
      specialize (Hs idx ltac:(lia)). rewrite Z.sub_diag, Hs0 in Hs. lia.
    + intros Hinj j Hj.
      destruct (Z.eq_dec j idx) as [-> | Hji].
      * rewrite Z.sub_diag, Hs0, Hkeep.
        -- rewrite Hx. apply list_lookup_insert_eq. lia.
        -- intros j Hj'. rewrite Z2Nat.id, <- Hs0 by lia.
           apply Hinj; lia.
      * replace (j - idx) with (j - (idx + 1) + 1) by lia.
        rewrite <- slot_of_succ. apply H6; [| lia].
        intros a b Hab Hb. rewrite !slot_of_succ. apply Hinj; lia.
Qed.

(** A finished run of the loop of [pop_range] from [idx]: the counter of
    the loop stayed below [INT32_MAX], [items] was long enough, the read
    counter advanced by the number of iterations, each position of [items]
    from [idx] on received the element of its slot, and the other positions
    kept theirs. *)
Lemma pop_loop_done_spec fuel len idx items q items' q' :
  0 <= idx <= INT32_MAX -> idx <= len ->
  0 <= readCounter q < 2 ^ index_bits ix ->
  pop_loop ix CAPACITY fuel len idx items q = Done (items', q') ->
  len <= INT32_MAX /\
  readCounter q' = to_index ix (readCounter q + (len - idx)) /\
  length items' = length items /\
  (idx < len -> len <= Z.of_nat (length items)) /\
  (forall j, idx <= j < len ->
     items' !! Z.to_nat j
     = buffer q !! Z.to_nat (slot_of ix CAPACITY (readCounter q) (j - idx))) /\
  (forall s : nat, ~ idx <= Z.of_nat s < len -> items' !! s = items !! s).
Proof.
  revert idx items q.
  induction fuel as [| fuel IH]; intros idx items q Hidx Hle Hr H.
  - open_iteration H. injection H as -> ->.
    rewrite (to_u32_idx idx Hidx) in *.
    assert (len = idx) as -> by lia.
    repeat split; try lia; try (intros; lia);
      rewrite Z.sub_diag, Z.add_0_r, to_index_small; auto.
  - rewrite pop_loop_eq, (to_u32_idx idx Hidx) in H.
    destruct (Z.ltb_spec idx len) as [Hlt | Hge].
    2:{ injection H as -> ->. assert (len = idx) as -> by lia.
        repeat split; try lia; try (intros; lia);
          rewrite Z.sub_diag, Z.add_0_r, to_index_small; auto. }
    destruct (array_get _ _) as [x |] eqn:Hget; [| discriminate].
    destruct (array_set _ _ _) as [items1 |] eqn:Hset; [| discriminate].
    destruct (Z.eqb_spec idx INT32_MAX) as [| Hne]; [discriminate |].
    apply array_get_Some in Hget as [Hsb Hx].
    apply array_set_Some in Hset as [Hib ->].
    apply IH in H as (H1 & H2 & H3 & H4 & H5 & H6); simpl in *;
      [| lia | lia | apply to_index_range].
    rewrite length_insert in H3, H4.
    split; [assumption |]. split.
    { rewrite H2, to_index_add_l. f_equal. lia. }
    split; [assumption |]. split; [lia |]. split.
    + intros j Hj. destruct (Z.eq_dec j idx) as [-> | Hji].
      * rewrite Z.sub_diag, slot_of_0, Hx, H6 by (assumption || lia).
        apply list_lookup_insert_eq. lia.
      * rewrite H5 by lia. rewrite slot_of_succ. do 3 f_equal. lia.
    + intros s Hs. rewrite H6 by lia.
      apply list_lookup_insert_ne. lia.
Qed.

End LoopResults.

(** ** Masking with a capacity that is a power of two *)

Section PowerOfTwo.

Context {T : Type}.
Variable ix : index_type.
Variable CAPACITY : Z.
Variable k : Z.
Hypothesis Hk : 0 <= k < 32.
Hypothesis HC : CAPACITY = 2 ^ k.

Implicit Types (q : LockFreeQueue T) (items : list T) (len idx : Z).

Lemma capacity_pos : 0 < CAPACITY.
Proof. rewrite HC. apply Z.pow_pos_nonneg; lia. Qed.

Lemma capacity_u32 : CAPACITY < 2 ^ 32.
Proof. rewrite HC. apply Z.pow_lt_mono_r; lia. Qed.

Lemma capacity_mask : to_u32 (CAPACITY - 1) = Z.ones k.
Proof.
  pose proof capacity_pos. pose proof capacity_u32.
  rewrite to_u32_small by lia. rewrite Z.ones_equiv, HC. lia.
Qed.

Lemma mask_bounds n : 0 <= mask ix CAPACITY n < CAPACITY.
Proof.
  split; [apply mask_nonneg |].
  unfold mask. rewrite capacity_mask, Z.land_ones by lia.
  pose proof capacity_pos as Hpos. rewrite HC in Hpos.
  pose proof (Z.mod_pos_bound n (2 ^ k) Hpos) as Hn.
  pose proof (Z.mod_le (n mod 2 ^ k) (2 ^ index_bits ix)
                ltac:(lia) (index_modulus_pos ix)) as Hle.
  unfold to_index. rewrite HC. lia.
Qed.

Lemma mask_mod n :
  0 <= n < 2 ^ index_bits ix ->
  mask ix CAPACITY n = Z.land n (CAPACITY - 1) /\
  mask ix CAPACITY n = n mod CAPACITY.
Proof.
  intros Hn. pose proof capacity_pos as Hpos.
  assert (Hland : Z.land n (CAPACITY - 1) = n mod CAPACITY).
  { rewrite <- (to_u32_small (CAPACITY - 1)) by (pose proof capacity_u32; lia).
    rewrite capacity_mask, Z.land_ones, HC by lia. reflexivity. }
  assert (Hm : mask ix CAPACITY n = n mod CAPACITY).
  { unfold mask. rewrite capacity_mask, Z.land_ones, <- HC by lia.
    apply to_index_small.
    pose proof (Z.mod_pos_bound n CAPACITY Hpos).
    pose proof (Z.mod_le n CAPACITY ltac:(lia) Hpos). lia. }
  split; congruence.
Qed.

Lemma pop_loop_in_bounds fuel len idx items q :
  Z.of_nat (length (buffer q)) = CAPACITY ->
  pop_loop ix CAPACITY fuel len idx items q <> Undefined BufferOutOfBounds.
Proof.
  revert idx items q.
  induction fuel as [| fuel IH]; intros idx items q Hbuf;
    rewrite pop_loop_eq; destruct (to_u32 idx <? len); try discriminate.
  destruct (array_get _ _) eqn:Hget.
  - destruct (array_set _ _ _); [| discriminate].
    destruct (idx =? INT32_MAX); [discriminate |]. apply IH. assumption.
  - apply array_get_None in Hget.
    pose proof (mask_bounds (readCounter q)). lia.
Qed.

Lemma push_loop_in_bounds fuel len idx items q :
  Z.of_nat (length (buffer q)) = CAPACITY ->
  push_loop ix CAPACITY fuel len idx items q <> Undefined BufferOutOfBounds.
Proof.
  revert idx q.
  induction fuel as [| fuel IH]; intros idx q Hbuf;
    rewrite push_loop_eq; destruct (to_u32 idx <? len); try discriminate.
  destruct (array_get _ _); [| discriminate].
  destruct (array_set _ _ _) eqn:Hset.
  - destruct (idx =? INT32_MAX); [discriminate |]. apply IH.
    apply array_set_Some in Hset as [_ ->]. simpl.
    rewrite length_insert. assumption.
  - apply array_set_None in Hset.
    pose proof (mask_bounds (writeCounter q)). lia.
Qed.

(** C7. With a capacity that is a power of two, [mask(n)] is
    [n & (CAPACITY - 1)], which is [n mod CAPACITY] and lies below
    [CAPACITY], for every value [n] of the index type; and on a backing
    array of [CAPACITY] elements neither [push_range] nor [pop_range] ever
    accesses [buffer] out of bounds. *)
Theorem mask_is_mod_capacity :
  (forall n, 0 <= n < 2 ^ index_bits ix ->
     mask ix CAPACITY n = Z.land n (CAPACITY - 1) /\
     mask ix CAPACITY n = n mod CAPACITY /\
     0 <= mask ix CAPACITY n < CAPACITY) /\
  (forall q items len,
     Z.of_nat (length (buffer q)) = CAPACITY ->
     push_range ix CAPACITY q items len <> Undefined BufferOutOfBounds /\
     pop_range ix CAPACITY q items len <> Undefined BufferOutOfBounds).
Proof.
  split.
  - intros n Hn. destruct (mask_mod n Hn) as [H1 H2].
    split; [assumption |]. split; [assumption | apply mask_bounds].
  - intros q items len Hbuf. split.
    + unfold push_range. destruct (_ <? _); [discriminate |].
      pose proof (push_loop_in_bounds (Z.to_nat len) len 0 items q Hbuf) as H.
      destruct (push_loop _ _ _ _ _ _ _); congruence.
    + unfold pop_range. destruct (_ <? _); [discriminate |].
      pose proof (pop_loop_in_bounds (Z.to_nat len) len 0 items q Hbuf) as H.
      destruct (pop_loop _ _ _ _ _ _ _) as [[? ?] | |]; congruence.
Qed.

End PowerOfTwo.

Lemma mask_is_mod_capacity_witness :
  (mask U8 8 253 = Z.land 253 (8 - 1) /\
   mask U8 8 253 = 253 mod 8 /\
   0 <= mask U8 8 253 < 8) /\
  (push_range U8 8 (mkQueue [1; 2; 3; 4; 5; 6; 7; 8] 253 250) [9; 10] 2
   <> Undefined BufferOutOfBounds /\
   pop_range U8 8 (mkQueue [1; 2; 3; 4; 5; 6; 7; 8] 253 250) [9; 10] 2
   <> Undefined BufferOutOfBounds).
Proof.
  split.
  - apply (proj1 (mask_is_mod_capacity (T:=Z) U8 8 3 ltac:(lia) eq_refl) 253).
    simpl. lia.
  - apply (proj2 (mask_is_mod_capacity U8 8 3 ltac:(lia) eq_refl)
             (mkQueue [1; 2; 3; 4; 5; 6; 7; 8] 253 250)).
    reflexivity.
Defined.

(** ** Occupancy *)

Section Occupancy.

Context {T : Type}.
Variable ix : index_type.
Variable CAPACITY : Z.

Implicit Types (q : LockFreeQueue T) (items : list T) (len idx : Z).

Lemma to_index_to_common x : to_index ix (to_common ix x) = to_index ix x.
Proof.
  unfold to_index, to_common.
  apply Z.mod_mod_divide.
  destruct ix; simpl;
    [exists (2 ^ 24) | exists (2 ^ 16) | exists 1 | exists 1]; reflexivity.
Qed.

Lemma to_common_nonneg x : 0 <= to_common ix x.
Proof.
  unfold to_common. apply Z.mod_pos_bound. destruct ix; reflexivity.
Qed.

Lemma size_after_push q q' n :
  readCounter q' = readCounter q ->
  writeCounter q' = to_index ix (writeCounter q + n) ->
  size ix q' = to_index ix (size ix q + n).
Proof.
  intros Hr Hw. rewrite !size_eq, Hr, Hw. unfold to_index.
  rewrite Zminus_mod_idemp_l, Zplus_mod_idemp_l. f_equal. lia.
Qed.

Lemma size_after_pop q q' n :
  writeCounter q' = writeCounter q ->
  readCounter q' = to_index ix (readCounter q + n) ->
  size ix q' = to_index ix (size ix q - n).
Proof.
  intros Hw Hr. rewrite !size_eq, Hr, Hw. unfold to_index.
  rewrite Zminus_mod_idemp_r, Zminus_mod_idemp_l. f_equal. lia.
Qed.

(** What a call to [push_range] that returns has done to the counters. *)
Lemma push_range_counters q items len b q' :
  counters_ok ix q ->
  push_range ix CAPACITY q items len = Done (b, q') ->
  counters_ok ix q' /\ readCounter q' = readCounter q /\
  (q' = q \/
   b = true /\ 0 < len <= INT32_MAX /\
   to_common ix (size ix q + len) <= CAPACITY /\
   writeCounter q' = to_index ix (writeCounter q + len)).
Proof.
  intros [Hw Hr] H.
  apply push_range_done in H as [(_ & _ & ->) | (-> & Hcap & H)].
  { split; [split; assumption |]. split; [reflexivity | left; reflexivity]. }
  destruct (Z.le_gt_cases len 0) as [Hle | Hpos].
  { rewrite push_loop_nop in H by (rewrite to_u32_small; lia).
    injection H as <-.
    split; [split; assumption |]. split; [reflexivity | left; reflexivity]. }
  pose proof (push_loop_frame _ _ _ _ _ _ _ _ H) as Hframe.
  apply push_loop_done_spec in H as (H1 & H2 & _);
    [| unfold INT32_MAX; lia | lia | assumption].
  rewrite Z.sub_0_r in H2.
  split; [split; [rewrite H2; apply to_index_range | congruence] |].
  split; [assumption |]. right. repeat split; assumption || lia.
Qed.

(** What a call to [pop_range] that returns has done to the counters. *)
Lemma pop_range_counters q items len b items' q' :
  counters_ok ix q ->
  pop_range ix CAPACITY q items len = Done (b, items', q') ->
  counters_ok ix q' /\ writeCounter q' = writeCounter q /\
  (q' = q \/
   b = true /\ 0 < len <= INT32_MAX /\ len <= size ix q /\
   readCounter q' = to_index ix (readCounter q + len)).
Proof.
  intros [Hw Hr] H.
  apply pop_range_done in H as [(_ & _ & _ & ->) | (-> & Hcap & H)].
  { split; [split; assumption |]. split; [reflexivity | left; reflexivity]. }
  destruct (Z.le_gt_cases len 0) as [Hle | Hpos].
  { rewrite pop_loop_nop in H by (rewrite to_u32_small; lia).
    injection H as <- <-.
    split; [split; assumption |]. split; [reflexivity | left; reflexivity]. }
  pose proof (pop_loop_frame _ _ _ _ _ _ _ _ _ H) as [_ Hframe].
  apply pop_loop_done_spec in H as (H1 & H2 & _);
    [| unfold INT32_MAX; lia | lia | assumption].
  rewrite Z.sub_0_r in H2.
  split; [split; [congruence | rewrite H2; apply to_index_range] |].
  split; [assumption |]. right. repeat split; assumption || lia.
Qed.

Lemma push_range_occupancy q items len b q' :
  occupancy_ok ix CAPACITY q ->
  push_range ix CAPACITY q items len = Done (b, q') ->
  occupancy_ok ix CAPACITY q'.
Proof.
  intros [Hc Hs] H.
  destruct (push_range_counters _ _ _ _ _ Hc H) as (Hc' & Hr & [-> | Hpush]).
  { split; assumption. }
  destruct Hpush as (_ & _ & Hcap & Hw). split; [assumption |].
  rewrite (size_after_push q q' len Hr Hw), <- to_index_to_common.
  pose proof (to_common_nonneg (size ix q + len)).
  pose proof (Z.mod_le (to_common ix (size ix q + len)) (2 ^ index_bits ix)
                ltac:(assumption) (index_modulus_pos ix)).
  unfold to_index. lia.
Qed.

Lemma pop_range_occupancy q items len b items' q' :
  occupancy_ok ix CAPACITY q ->
  pop_range ix CAPACITY q items len = Done (b, items', q') ->
  occupancy_ok ix CAPACITY q'.
Proof.
  intros [Hc Hs] H.
  destruct (pop_range_counters _ _ _ _ _ _ Hc H) as (Hc' & Hw & [-> | Hpop]).
  { split; assumption. }
  destruct Hpop as (_ & Hlen & Hle & Hr). split; [assumption |].
  rewrite (size_after_pop q q' len Hw Hr).
  pose proof (size_range ix q).
  rewrite to_index_small; lia.
Qed.

Lemma run_occupancy calls : forall q pushed popped q' pushed' popped',
  occupancy_ok ix CAPACITY q ->
  run ix CAPACITY q calls pushed popped = Done (q', pushed', popped') ->
  occupancy_ok ix CAPACITY q'.
Proof.
  induction calls as [| [items len | items len] calls IH];
    intros q pushed popped q' pushed' popped' Hq H; simpl in H.
  - injection H as <- _ _. assumption.
  - destruct (push_range _ _ _ _ _) as [[b q1] | |] eqn:Hpush;
      try discriminate.
    apply push_range_occupancy in Hpush; [| assumption].
    destruct b; eapply IH; eassumption.
  - destruct (pop_range _ _ _ _ _) as [[[b items1] q1] | |] eqn:Hpop;
      try discriminate.
    apply pop_range_occupancy in Hpop; [| assumption].
    destruct b; eapply IH; eassumption.
Qed.

Lemma new_queue_occupancy (junk : nat -> T) :
  0 <= CAPACITY -> occupancy_ok ix CAPACITY (new_queue CAPACITY junk).
Proof.
  intros HC. pose proof (index_modulus_pos ix).
  split; [split; simpl; lia |].
  rewrite size_eq. simpl. rewrite Z.mod_0_l; lia.
Qed.

(** C1. Starting from a freshly constructed queue, after any sequence of
    calls to [push_range] and [pop_range] the occupancy [size()] lies
    between zero and [CAPACITY], whatever the width of the index type and
    however often the counters have wrapped.  A prefix of a sequence of
    calls is a sequence of calls, so this is the occupancy after every
    call. *)
Theorem occupancy_within_capacity junk calls q pushed popped :
  0 <= CAPACITY ->
  run ix CAPACITY (new_queue CAPACITY junk) calls [] [] = Done (q, pushed, popped) ->
  0 <= size ix q <= CAPACITY.
Proof.
  intros HC H.
  apply run_occupancy in H as [_ Hs]; [| apply new_queue_occupancy, HC].
  pose proof (size_range ix q). lia.
Qed.

(** C10. A call with a count of zero returns [true] and changes nothing:
    [pop_range] in every state, [push_range] in every state whose occupancy
    does not exceed the capacity, hence in every state that a freshly
    constructed queue can reach, empty and full included. *)
Theorem zero_count_calls_succeed q items :
  pop_range ix CAPACITY q items 0 = Done (true, items, q) /\
  (size ix q <= CAPACITY ->
   push_range ix CAPACITY q items 0 = Done (true, q)) /\
  (forall (junk : nat -> T) calls pushed popped,
     0 <= CAPACITY ->
     run ix CAPACITY (new_queue CAPACITY junk) calls [] []
     = Done (q, pushed, popped) ->
     push_range ix CAPACITY q items 0 = Done (true, q)).
Proof.
  pose proof (size_range ix q) as Hs.
  assert (Hpush : size ix q <= CAPACITY ->
                  push_range ix CAPACITY q items 0 = Done (true, q)).
  { intros Hcap. unfold push_range, to_common.
    rewrite Z.add_0_r, Z.mod_small.
    + destruct (Z.ltb_spec CAPACITY (size ix q)); [lia |].
      rewrite push_loop_nop; [reflexivity | rewrite to_u32_small; lia].
    + split; [lia |]. apply Z.lt_le_trans with (2 ^ index_bits ix); [lia |].
      apply Z.pow_le_mono_r; lia. }
  split; [| split; [exact Hpush |]].
  - unfold pop_range. destruct (Z.ltb_spec (size ix q) 0); [lia |].
    rewrite pop_loop_nop; [reflexivity | rewrite to_u32_small; lia].
  - intros junk calls pushed popped HC H. apply Hpush.
    apply run_occupancy in H as [_ H]; [exact H |].
    apply new_queue_occupancy, HC.
Qed.

End Occupancy.

Lemma zero_count_calls_succeed_witness :
  push_range U8 8 (mkQueue [1; 2; 3; 4; 5; 6; 7; 8] 8 0) [] 0
  = Done (true, mkQueue [1; 2; 3; 4; 5; 6; 7; 8] 8 0) /\
  push_range U8 8 (mkQueue [1; 2; 3; 4; 5; 6; 7; 8] 8 0) [] 0
  = Done (true, mkQueue [1; 2; 3; 4; 5; 6; 7; 8] 8 0).
Proof.
  split.
  - apply (proj1 (proj2 (zero_count_calls_succeed U8 8
                    (mkQueue [1; 2; 3; 4; 5; 6; 7; 8] 8 0) []))).
    vm_compute. discriminate.
  - apply (proj2 (proj2 (zero_count_calls_succeed U8 8
                    (mkQueue [1; 2; 3; 4; 5; 6; 7; 8] 8 0) []))
             (fun _ => 0) [Push [1; 2; 3; 4; 5; 6; 7; 8] 8] [1; 2; 3; 4; 5; 6; 7; 8] []).
    + lia.
    + vm_compute. reflexivity.
Defined.

(** ** First in, first out *)

Section Fifo.

Context {T : Type}.
Variable ix : index_type.
Variable CAPACITY : Z.
Variable k : Z.
Hypothesis Hk : 0 <= k < 32.
Hypothesis HC : CAPACITY = 2 ^ k.
Hypothesis HkW : k < index_bits ix.

Implicit Types (q : LockFreeQueue T) (items pushed popped : list T) (len : Z).

Lemma capacity_lt_modulus : CAPACITY < 2 ^ index_bits ix.
Proof. rewrite HC. apply Z.pow_lt_mono_r; lia. Qed.

Lemma capacity_le_half : CAPACITY <= 2 ^ 31.
Proof. rewrite HC. apply Z.pow_le_mono_r; lia. Qed.

Lemma capacity_divides_modulus : (CAPACITY | 2 ^ index_bits ix).
Proof.
  exists (2 ^ (index_bits ix - k)).
  rewrite HC, <- Z.pow_add_r by lia. f_equal. lia.
Qed.

Lemma slot_of_wrapped X a :
  slot_of ix CAPACITY (to_index ix X) a = (X + a) mod CAPACITY.
Proof.
  unfold slot_of. rewrite to_index_add_l.
  destruct (mask_mod ix CAPACITY k Hk HC (to_index ix (X + a))
              (to_index_range _ _)) as [_ ->].
  unfold to_index. apply Z.mod_mod_divide, capacity_divides_modulus.
Qed.

(** Two positions less than [CAPACITY] apart have different slots. *)
Lemma mod_window_distinct x y :
  0 < y - x < CAPACITY -> x mod CAPACITY <> y mod CAPACITY.
Proof.
  intros Hxy Heq.
  assert (Hz : (y - x) mod CAPACITY = 0)
    by (rewrite Zminus_mod, Heq, Z.sub_diag; apply Zmod_0_l).
  rewrite Z.mod_small in Hz; lia.
Qed.

Lemma slot_nonneg x : 0 <= x mod CAPACITY.
Proof. apply Z.mod_pos_bound, (capacity_pos CAPACITY k Hk HC). Qed.

Lemma push_range_fifo q items len q' pushed popped :
  fifo_inv ix CAPACITY q pushed popped ->
  push_range ix CAPACITY q items len = Done (true, q') ->
  fifo_inv ix CAPACITY q' (pushed ++ transferred items len) popped.
Proof.
  intros (R & HR & Hocc & Hw & Hr & Hbuf & Hpop & Hslots) H.
  set (P := Z.of_nat (length pushed)) in *.
  assert (Hsize : size ix q = P - R).
  { apply (size_of_wrapped ix q P R Hw Hr).
    pose proof capacity_lt_modulus. lia. }
  apply push_range_done in H as [(Hb & _) | (_ & Hcap & H)]; [discriminate |].
  destruct (Z.le_gt_cases len 0) as [Hle | Hpos].
  { rewrite push_loop_nop in H by (rewrite to_u32_small; lia).
    injection H as <-. unfold transferred.
    replace (Z.to_nat len) with 0%nat by lia. rewrite take_0, app_nil_r.
    exists R. auto 10. }
  pose proof (push_loop_frame _ _ _ _ _ _ _ _ H) as Hframe.
  apply push_loop_done_spec in H as (H1 & H2 & H3 & H4 & H5 & H6);
    [| unfold INT32_MAX; lia | lia | rewrite Hw; apply to_index_range].
  rewrite Z.sub_0_r in H2. specialize (H4 Hpos).
  assert (Hexact : P - R + len <= CAPACITY).
  { rewrite Hsize in Hcap. unfold to_common in Hcap.
    rewrite Z.mod_small in Hcap; [assumption |].
    pose proof capacity_le_half. unfold INT32_MAX in H1. split; [lia |].
    apply Z.lt_le_trans with (2 ^ 32); [lia |].
    apply Z.pow_le_mono_r; lia. }
  assert (Hlen : length (transferred items len) = Z.to_nat len).
  { unfold transferred. rewrite length_take. lia. }
  exists R. rewrite length_app, Hlen, Nat2Z.inj_add, Z2Nat.id by lia.
  fold P.
  split; [lia |]. split; [lia |].
  split; [rewrite H2, Hw, to_index_add_l; reflexivity |].
  split; [congruence |]. split; [lia |].
  split; [rewrite take_app_le by lia; assumption |].
  intros n Hn. destruct (Z.lt_ge_cases n P) as [Hold | Hnew].
  - rewrite lookup_app_l by lia. rewrite <- Hslots by lia.
    apply H5. intros j Hj.
    rewrite Z.sub_0_r, Hw, slot_of_wrapped, Z2Nat.id by apply slot_nonneg.
    apply mod_window_distinct. lia.
  - rewrite lookup_app_r by lia. unfold transferred.
    rewrite lookup_take_lt by lia.
    replace (Z.to_nat n - length pushed)%nat with (Z.to_nat (n - P)) by lia.
    rewrite <- H6.
    + rewrite Z.sub_0_r, Hw, slot_of_wrapped. do 3 f_equal. lia.
    + intros a b Hab Hb. rewrite Hw, !slot_of_wrapped.
      apply mod_window_distinct. lia.
    + lia.
Qed.

Lemma pop_range_fifo q items len items' q' pushed popped :
  fifo_inv ix CAPACITY q pushed popped ->
  pop_range ix CAPACITY q items len = Done (true, items', q') ->
  fifo_inv ix CAPACITY q' pushed (popped ++ transferred items' len) /\
  length (transferred items' len) = Z.to_nat len.
Proof.
  intros (R & HR & Hocc & Hw & Hr & Hbuf & Hpop & Hslots) H.
  set (P := Z.of_nat (length pushed)) in *.
  assert (Hsize : size ix q = P - R).
  { apply (size_of_wrapped ix q P R Hw Hr).
    pose proof capacity_lt_modulus. lia. }
  apply pop_range_done in H as [(Hb & _) | (_ & Hcap & H)]; [discriminate |].
  destruct (Z.le_gt_cases len 0) as [Hle | Hpos].
  { rewrite pop_loop_nop in H by (rewrite to_u32_small; lia).
    injection H as <- <-. unfold transferred.
    replace (Z.to_nat len) with 0%nat by lia. rewrite take_0, app_nil_r.
    split; [exists R; auto 10 | reflexivity]. }
  pose proof (pop_loop_frame _ _ _ _ _ _ _ _ _ H) as [Hfb Hfw].
  apply pop_loop_done_spec in H as (H1 & H2 & H3 & H4 & H5 & _);
    [| unfold INT32_MAX; lia | lia | rewrite Hr; apply to_index_range].
  rewrite Z.sub_0_r in H2. specialize (H4 Hpos).
  assert (Hlen : length (transferred items' len) = Z.to_nat len).
  { unfold transferred. rewrite length_take. lia. }
  split; [| assumption].
  assert (Hitems : transferred items' len
                   = take (Z.to_nat len) (drop (Z.to_nat R) pushed)).
  { unfold transferred. apply list_eq. intros i.
    rewrite !lookup_take. destruct (decide (i < Z.to_nat len)%nat); [| reflexivity].
    rewrite lookup_drop.
    replace i with (Z.to_nat (Z.of_nat i)) at 1 by lia.
    rewrite H5, Z.sub_0_r, Hr, slot_of_wrapped, Hslots by lia.
    f_equal. lia. }
  exists (R + len).
  split; [lia |]. split; [lia |].
  split; [rewrite Hfw; exact Hw |].
  split; [rewrite H2, Hr, to_index_add_l; reflexivity |].
  split; [rewrite Hfb; exact Hbuf |].
  split.
  { rewrite Hitems, Hpop, take_take_drop. f_equal. lia. }
  intros n Hn. rewrite Hfb. apply Hslots. lia.
Qed.

Lemma run_fifo calls : forall q pushed popped q' pushed' popped',
  fifo_inv ix CAPACITY q pushed popped ->
  run ix CAPACITY q calls pushed popped = Done (q', pushed', popped') ->
  fifo_inv ix CAPACITY q' pushed' popped'.
Proof.
  induction calls as [| [items len | items len] calls IH];
    intros q pushed popped q' pushed' popped' Hq H; simpl in H.
  - injection H as <- <- <-. assumption.
  - destruct (push_range _ _ _ _ _) as [[[] q1] | |] eqn:Hpush;
      try discriminate.
    + eapply IH; [| eassumption]. eapply push_range_fifo; eassumption.
    + apply push_range_done in Hpush as [(_ & _ & ->) | (? & _)];
        [| discriminate].
      eapply IH; eassumption.
  - destruct (pop_range _ _ _ _ _) as [[[[] items1] q1] | |] eqn:Hpop;
      try discriminate.
    + eapply IH; [| eassumption]. eapply pop_range_fifo; eassumption.
    + apply pop_range_done in Hpop as [(_ & _ & _ & ->) | (? & _)];
        [| discriminate].
      eapply IH; eassumption.
Qed.

Lemma new_queue_fifo (junk : nat -> T) :
  fifo_inv ix CAPACITY (new_queue CAPACITY junk) [] [].
Proof.
  pose proof (capacity_pos CAPACITY k Hk HC).
  exists 0. simpl. rewrite length_map, length_seq.
  repeat split; try lia; try reflexivity; intros; lia.
Qed.

End Fifo.

(** ** Calls return *)

Section Totality.

Context {T : Type}.
Variable ix : index_type.
Variable CAPACITY : Z.

Implicit Types (q : LockFreeQueue T) (items : list T) (len idx : Z).

Lemma pop_loop_fuel fuel len idx items q :
  0 <= idx <= INT32_MAX -> len - idx <= Z.of_nat fuel ->
  pop_loop ix CAPACITY fuel len idx items q <> OutOfFuel.
Proof.
  revert idx items q.
  induction fuel as [| fuel IH]; intros idx items q Hidx Hfuel;
    rewrite pop_loop_eq, (to_u32_idx idx Hidx);
    destruct (Z.ltb_spec idx len); try discriminate; [lia |].
  destruct (array_get _ _); [| discriminate].
  destruct (array_set _ _ _); [| discriminate].
  destruct (Z.eqb_spec idx INT32_MAX); [discriminate |].
  apply IH; lia.
Qed.

Lemma push_loop_fuel fuel len idx items q :
  0 <= idx <= INT32_MAX -> len - idx <= Z.of_nat fuel ->
  push_loop ix CAPACITY fuel len idx items q <> OutOfFuel.
Proof.
  revert idx q.
  induction fuel as [| fuel IH]; intros idx q Hidx Hfuel;
    rewrite push_loop_eq, (to_u32_idx idx Hidx);
    destruct (Z.ltb_spec idx len); try discriminate; [lia |].
  destruct (array_get _ _); [| discriminate].
  destruct (array_set _ _ _); [| discriminate].
  destruct (Z.eqb_spec idx INT32_MAX); [discriminate |].
  apply IH; lia.
Qed.

(** The fuel handed to the loops is enough: no call runs out of it. *)
Lemma pop_range_terminates q items len :
  pop_range ix CAPACITY q items len <> OutOfFuel.
Proof.
  unfold pop_range. destruct (_ <? _); [discriminate |].
  pose proof (pop_loop_fuel (Z.to_nat len) len 0 items q) as H.
  destruct (pop_loop _ _ _ _ _ _ _) as [[? ?] | |]; try discriminate.
  exfalso. apply H; [unfold INT32_MAX; lia | lia | reflexivity].
Qed.

Lemma push_range_terminates q items len :
  push_range ix CAPACITY q items len <> OutOfFuel.
Proof.
  unfold push_range. destruct (_ <? _); [discriminate |].
  pose proof (push_loop_fuel (Z.to_nat len) len 0 items q) as H.
  destruct (push_loop _ _ _ _ _ _ _); try discriminate.
  exfalso. apply H; [unfold INT32_MAX; lia | lia | reflexivity].
Qed.

Variable k : Z.
Hypothesis Hk : 0 <= k < 32.
Hypothesis HC : CAPACITY = 2 ^ k.

Lemma pop_loop_succeeds fuel len idx items q :
  0 <= idx <= len -> len <= INT32_MAX ->
  len <= Z.of_nat (length items) ->
  Z.of_nat (length (buffer q)) = CAPACITY ->
  len - idx <= Z.of_nat fuel ->
  exists r, pop_loop ix CAPACITY fuel len idx items q = Done r.
Proof.
  revert idx items q.
  induction fuel as [| fuel IH]; intros idx items q Hidx Hlen Hit Hbuf Hfuel;
    rewrite pop_loop_eq, (to_u32_idx idx ltac:(lia));
    destruct (Z.ltb_spec idx len); eauto; [lia |].
  destruct (array_get _ _) eqn:Hget.
  2:{ apply array_get_None in Hget.
      pose proof (mask_bounds ix CAPACITY k Hk HC (readCounter q)). lia. }
  destruct (array_set _ _ _) eqn:Hset.
  2:{ apply array_set_None in Hset. lia. }
  apply array_set_Some in Hset as [_ ->].
  destruct (Z.eqb_spec idx INT32_MAX); [lia |].
  apply IH; rewrite ?length_insert; simpl; lia.
Qed.

Lemma push_loop_succeeds fuel len idx items q :
  0 <= idx <= len -> len <= INT32_MAX ->
  len <= Z.of_nat (length items) ->
  Z.of_nat (length (buffer q)) = CAPACITY ->
  len - idx <= Z.of_nat fuel ->
  exists q', push_loop ix CAPACITY fuel len idx items q = Done q'.
Proof.
  revert idx q.
  induction fuel as [| fuel IH]; intros idx q Hidx Hlen Hit Hbuf Hfuel;
    rewrite push_loop_eq, (to_u32_idx idx ltac:(lia));
    destruct (Z.ltb_spec idx len); eauto; [lia |].
  destruct (array_get _ _) eqn:Hget.
  2:{ apply array_get_None in Hget. lia. }
  destruct (array_set _ _ _) eqn:Hset.
  2:{ apply array_set_None in Hset.
      pose proof (mask_bounds ix CAPACITY k Hk HC (writeCounter q)). lia. }
  apply array_set_Some in Hset as [_ ->].
  destruct (Z.eqb_spec idx INT32_MAX); [lia |].
  apply IH; simpl; rewrite ?length_insert; lia.
Qed.

(** X2. Within the reach of the loop counter, a pop of no more than [size()]
    elements into an array that has room for them succeeds: it copies the
    elements of the slots that follow the read counter into the first
    [len] positions of the array, in order, leaves the rest of the array
    alone and advances the read counter by [len]. *)
Lemma pop_range_succeeds q items len :
  counters_ok ix q ->
  Z.of_nat (length (buffer q)) = CAPACITY ->
  0 <= len <= INT32_MAX ->
  len <= size ix q ->
  len <= Z.of_nat (length items) ->
  exists items' q',
    pop_range ix CAPACITY q items len = Done (true, items', q') /\
    readCounter q' = to_index ix (readCounter q + len) /\
    length items' = length items /\
    (forall j, 0 <= j < len ->
       items' !! Z.to_nat j
       = buffer q !! Z.to_nat (slot_of ix CAPACITY (readCounter q) j)) /\
    drop (Z.to_nat len) items' = drop (Z.to_nat len) items.
Proof.
  intros [Hw Hr] Hbuf Hlen Hsize Hit. unfold pop_range.
  destruct (Z.ltb_spec (size ix q) len); [lia |].
  destruct (pop_loop_succeeds (Z.to_nat len) len 0 items q)
    as [[items' q'] Hloop]; try lia.
  rewrite Hloop. exists items', q'. split; [reflexivity |].
  apply pop_loop_done_spec in Hloop as (_ & H2 & H3 & _ & H5 & H6);
    [| unfold INT32_MAX; lia | lia | assumption].
  rewrite Z.sub_0_r in H2.
  split; [assumption |]. split; [assumption |]. split.
  - intros j Hj. rewrite H5 by lia. rewrite Z.sub_0_r. reflexivity.
  - apply list_eq. intros i. rewrite !lookup_drop. apply H6. lia.
Qed.

(** Within the reach of the loop counter, a push that fits succeeds and
    advances the write counter by [len]. *)
Lemma push_range_succeeds q items len :
  counters_ok ix q ->
  Z.of_nat (length (buffer q)) = CAPACITY ->
  0 <= len <= INT32_MAX ->
  size ix q + len <= CAPACITY ->
  len <= Z.of_nat (length items) ->
  exists q',
    push_range ix CAPACITY q items len = Done (true, q') /\
    writeCounter q' = to_index ix (writeCounter q + len) /\
    readCounter q' = readCounter q.
Proof.
  intros [Hw Hr] Hbuf Hlen Hsize Hit. unfold push_range.
  assert (Hsum : to_common ix (size ix q + len) = size ix q + len).
  { pose proof (size_range ix q). pose proof (capacity_u32 CAPACITY k Hk HC).
    apply Z.mod_small. split; [lia |].
    apply Z.lt_le_trans with (2 ^ 32); [lia |].
    apply Z.pow_le_mono_r; lia. }
  rewrite Hsum. destruct (Z.ltb_spec CAPACITY (size ix q + len)); [lia |].
  destruct (push_loop_succeeds (Z.to_nat len) len 0 items q)
    as [q' Hloop]; try lia.
  rewrite Hloop. exists q'. split; [reflexivity |].
  pose proof (push_loop_frame _ _ _ _ _ _ _ _ Hloop) as Hframe.
  apply push_loop_done_spec in Hloop as (_ & H2 & _);
    [| unfold INT32_MAX; lia | lia | assumption].
  rewrite Z.sub_0_r in H2. split; assumption.
Qed.

(** X4. Within the reach of the loop counter and with at most [CAPACITY]
    elements in the queue, [push_range] returns [false] exactly when the
    elements do not fit. *)
Lemma push_range_fails_iff_in_reach q items len :
  0 <= len <= INT32_MAX ->
  size ix q <= CAPACITY ->
  push_range ix CAPACITY q items len = Done (false, q) <->
  CAPACITY < size ix q + len.
Proof.
  intros Hlen Hsize.
  assert (Hsum : to_common ix (size ix q + len) = size ix q + len).
  { pose proof (size_range ix q). pose proof (capacity_le_half CAPACITY k Hk HC).
    unfold INT32_MAX in Hlen.
    apply Z.mod_small. split; [lia |].
    apply Z.lt_le_trans with (2 ^ 32); [lia |].
    apply Z.pow_le_mono_r; lia. }
  split.
  - intros H. apply push_range_done in H as [(_ & H & _) | (H & _)];
      [lia | discriminate].
  - intros H. unfold push_range. rewrite Hsum.
    destruct (Z.ltb_spec CAPACITY (size ix q + len)); [reflexivity | lia].
Qed.

End Totality.

(** ** The order of delivery *)

Section FifoOrder.

Context {T : Type}.
Variable ix : index_type.
Variable CAPACITY : Z.
Variable k : Z.
Hypothesis Hk : 0 <= k < 32.
Hypothesis HC : CAPACITY = 2 ^ k.
Hypothesis HkW : k < index_bits ix.

Implicit Types (q : LockFreeQueue T) (items pushed popped : list T) (len : Z).


End FifoOrder.



(** ** Concrete runs *)

(** The capacity boundary: eight elements fill a queue of capacity eight,
    and a further push of one element is refused and changes nothing. *)
Example capacity_boundary :
  push_range U32 8 (new_queue 8 (fun _ => 0)) [1; 2; 3; 4; 5; 6; 7; 8] 8
  = Done (true, mkQueue [1; 2; 3; 4; 5; 6; 7; 8] 8 0) /\
  size U32 (mkQueue [1; 2; 3; 4; 5; 6; 7; 8] 8 0) = 8 /\
  push_range U32 8 (mkQueue [1; 2; 3; 4; 5; 6; 7; 8] 8 0) [9] 1
  = Done (false, mkQueue [1; 2; 3; 4; 5; 6; 7; 8] 8 0).
Proof. repeat split; vm_compute; reflexivity. Qed.

(** C2 (the input at which the code and the claim part).  On a full queue
    of capacity eight with the default index type, a push of [2^32 - 8]
    elements does not fit, yet [size() + length] wraps to zero, the check
    lets the call through and the loop starts to overwrite the elements
    that are waiting to be read; the call never returns [false]. *)
Theorem push_range_check_wraps :
  push_range U32 8 (new_queue 8 (fun _ => 0)) [1; 2; 3; 4; 5; 6; 7; 8] 8
  = Done (true, mkQueue [1; 2; 3; 4; 5; 6; 7; 8] 8 0) /\
  8 < size U32 (mkQueue [1; 2; 3; 4; 5; 6; 7; 8] 8 0) + 4294967288 /\
  to_common U32 (size U32 (mkQueue [1; 2; 3; 4; 5; 6; 7; 8] 8 0) + 4294967288)
  = 0 /\
  forall items : list Z,
    exists f,
      push_range U32 8 (mkQueue [1; 2; 3; 4; 5; 6; 7; 8] 8 0) items 4294967288
      = Undefined f.
Proof.
  split; [vm_compute; reflexivity |].
  split; [vm_compute; reflexivity |].
  split; [vm_compute; reflexivity |].
  intros items. apply push_range_overflows.
  - reflexivity.
  - replace (to_common U32 _) with 0 by (vm_compute; reflexivity). lia.
Qed.

(** A capacity equal to the number of values of the index type passes the
    [static_assert], but [size()] cannot tell the full queue from the empty
    one: the 257th element overwrites the first and is popped in its
    place. *)
Example capacity_must_stay_below_index_range :
  exists q pushed popped,
    run U8 256 (new_queue 256 (fun _ => 0))
        [Push (map Z.of_nat (seq 1 256)) 256; Push [257] 1; Pop [0] 1] [] []
    = Done (q, pushed, popped) /\
    pushed = map Z.of_nat (seq 1 257) /\ popped = [257].
Proof.
  eexists _, _, _. split; [vm_compute; reflexivity |].
  split; vm_compute; reflexivity.
Qed.

Lemma occupancy_within_capacity_witness :
  exists q pushed popped,
    run U8 8 (new_queue 8 (fun _ => 0)) wrap_calls [] []
    = Done (q, pushed, popped) /\
    256 < Z.of_nat (length pushed) /\
    0 <= size U8 q <= 8.
Proof.
  let r := eval vm_compute in
             (run U8 8 (new_queue 8 (fun _ => 0)) wrap_calls [] []) in
  match r with
  | Done (?q, ?ps, ?pp) =>
    assert (Hrun : run U8 8 (new_queue 8 (fun _ => 0)) wrap_calls [] []
                   = Done (q, ps, pp)) by (vm_compute; reflexivity);
    exists q, ps, pp;
    split; [exact Hrun |];
    split; [vm_compute; reflexivity |];
    apply (occupancy_within_capacity U8 8 (fun _ => 0) wrap_calls q ps pp
             ltac:(lia) Hrun)
  end.
Defined.

(** * Further properties of the queue *)

(** ** Calls within the reach of the loop counter *)

Section DefinedCalls.

Context {T : Type}.
Variable ix : index_type.
Variable CAPACITY : Z.
Variable k : Z.
Hypothesis Hk : 0 <= k < 32.
Hypothesis HC : CAPACITY = 2 ^ k.

Implicit Types (q : LockFreeQueue T) (items : list T) (len idx : Z).

(** X5. With a capacity that is a power of two and a backing array of
    [CAPACITY] elements, every call with a count of at most [INT32_MAX] and
    an array of at least that many elements has defined behaviour: it
    returns [true] or [false], whatever the counters hold. *)
Theorem calls_are_defined q items len :
  Z.of_nat (length (buffer q)) = CAPACITY ->
  0 <= len <= INT32_MAX ->
  len <= Z.of_nat (length items) ->
  (exists b items' q', pop_range ix CAPACITY q items len = Done (b, items', q')) /\
  (exists b q', push_range ix CAPACITY q items len = Done (b, q')).
Proof.
  intros Hbuf Hlen Hit. split.
  - unfold pop_range. destruct (_ <? _); [eauto |].
    destruct (pop_loop_succeeds ix CAPACITY k Hk HC (Z.to_nat len) len 0 items q)
      as [[items' q'] ->]; try lia.
    eauto.
  - unfold push_range. destruct (_ <? _); [eauto |].
    destruct (push_loop_succeeds ix CAPACITY k Hk HC (Z.to_nat len) len 0 items q)
      as [q' ->]; try lia.
    eauto.
Qed.

End DefinedCalls.

Lemma calls_are_defined_witness :
  (exists b items' q',
     pop_range U8 8 (mkQueue [1; 2; 3; 4; 5; 6; 7; 8] 253 250) [9; 10] 2
     = Done (b, items', q')) /\
  (exists b q',
     push_range U8 8 (mkQueue [1; 2; 3; 4; 5; 6; 7; 8] 253 250) [9; 10] 2
     = Done (b, q')).
Proof.
  apply (calls_are_defined U8 8 3 ltac:(lia) eq_refl
           (mkQueue [1; 2; 3; 4; 5; 6; 7; 8] 253 250) [9; 10] 2).
  - reflexivity.
  - unfold INT32_MAX. lia.
  - simpl. lia.
Defined.

(** ** Slots, contents and histories *)

Section Contents.

Context {T : Type}.
Variable ix : index_type.
Variable CAPACITY : Z.
Variable k : Z.
Hypothesis Hk : 0 <= k < 32.
Hypothesis HC : CAPACITY = 2 ^ k.
Hypothesis HkW : k < index_bits ix.

Implicit Types (q : LockFreeQueue T) (items pushed popped : list T) (len : Z).

Lemma slot_of_mod c a : slot_of ix CAPACITY c a = (c + a) mod CAPACITY.
Proof.
  unfold slot_of.
  destruct (mask_mod ix CAPACITY k Hk HC (to_index ix (c + a))
              (to_index_range _ _)) as [_ ->].
  unfold to_index.
  apply Z.mod_mod_divide, (capacity_divides_modulus ix CAPACITY k Hk HC HkW).
Qed.

(** X7. The slots visited by a counter that starts at [c] and is
    incremented with wrap-around: two positions less than [CAPACITY] apart
    never share a slot, and a slot comes round again after exactly
    [CAPACITY] increments, also across the wrap of the index type. *)
Theorem slots_cycle_with_period_capacity c a b :
  (0 <= a < b -> b - a < CAPACITY ->
   slot_of ix CAPACITY c a <> slot_of ix CAPACITY c b) /\
  slot_of ix CAPACITY c (a + CAPACITY) = slot_of ix CAPACITY c a.
Proof.
  rewrite !slot_of_mod. split.
  - intros Hab Hwin.
    apply (mod_window_distinct CAPACITY k); lia.
  - rewrite Z.add_assoc, <- Zplus_mod_idemp_r, Z.mod_same, Z.add_0_r;
      [reflexivity |].
    pose proof (capacity_pos CAPACITY k Hk HC). lia.
Qed.

(** X3. Within the reach of the loop counter, a push that fits, from an
    array that holds the elements, succeeds: the [j]-th element lands in
    the slot [j] positions after the write counter, every other slot keeps
    its content, the backing array keeps its length, the write counter
    advances by [len] and the read counter stays. *)
Theorem push_range_stores q items len :
  counters_ok ix q ->
  Z.of_nat (length (buffer q)) = CAPACITY ->
  0 <= len <= INT32_MAX ->
  size ix q + len <= CAPACITY ->
  len <= Z.of_nat (length items) ->
  exists q',
    push_range ix CAPACITY q items len = Done (true, q') /\
    writeCounter q' = to_index ix (writeCounter q + len) /\
    readCounter q' = readCounter q /\
    length (buffer q') = length (buffer q) /\
    (forall j, 0 <= j < len ->
       buffer q' !! Z.to_nat ((writeCounter q + j) mod CAPACITY)
       = items !! Z.to_nat j) /\
    (forall s : nat,
       (forall j, 0 <= j < len ->
          Z.of_nat s <> (writeCounter q + j) mod CAPACITY) ->
       buffer q' !! s = buffer q !! s).
Proof.
  intros Hc Hbuf Hlen Hfit Hit.
  destruct (push_range_succeeds ix CAPACITY k Hk HC q items len
              Hc Hbuf Hlen Hfit Hit) as (q' & Hpush & Hw & Hr).
  exists q'. split; [exact Hpush |].
  apply push_range_done in Hpush as [(Hb & _) | (_ & _ & Hloop)];
    [discriminate |].
  destruct Hc as [Hwc Hrc]. pose proof (size_range ix q) as Hs.
  apply push_loop_done_spec in Hloop as (_ & _ & H3 & _ & H5 & H6);
    [| unfold INT32_MAX; lia | lia | assumption].
  split; [assumption |]. split; [assumption |]. split; [assumption |].
  split.
  - intros j Hj. rewrite <- slot_of_mod.
    replace j with (j - 0) at 1 by lia. apply H6; [| lia].
    intros a b Hab Hb. rewrite !slot_of_mod.
    apply (mod_window_distinct CAPACITY k); lia.
  - intros s Hs'. apply H5. intros j Hj.
    rewrite Z.sub_0_r, slot_of_mod. apply Hs'. lia.
Qed.

(** X8. In every state that a freshly constructed queue reaches, [size()]
    is exactly the number of elements pushed and not yet popped, the
    backing array still has [CAPACITY] elements and both counters hold
    values of the index type. *)
Theorem size_counts_elements_in_flight (junk : nat -> T) calls q pushed popped :
  run ix CAPACITY (new_queue CAPACITY junk) calls [] []
  = Done (q, pushed, popped) ->
  size ix q = Z.of_nat (length pushed) - Z.of_nat (length popped) /\
  Z.of_nat (length (buffer q)) = CAPACITY /\
  counters_ok ix q.
Proof.
  intros H.
  apply (run_fifo ix CAPACITY k Hk HC HkW) in H;
    [| apply (new_queue_fifo ix CAPACITY k Hk HC)].
  destruct H as (R & HR & Hocc & Hw & Hr & Hbuf & -> & _).
  pose proof (capacity_lt_modulus ix CAPACITY k Hk HC HkW).
  split; [| split; [assumption |]].
  - rewrite (size_of_wrapped ix q _ R Hw Hr) by lia.
    rewrite length_take. lia.
  - split; [rewrite Hw | rewrite Hr]; apply to_index_range.
Qed.

(** X9. With a capacity that is a power of two below the range of the index
    type, in every state that a freshly constructed queue reaches, a pop
    that succeeds delivers the [len] oldest elements that have been pushed
    and not yet popped, in the order in which they were pushed. *)
Theorem pop_range_delivers_oldest (junk : nat -> T) calls q pushed popped
    dest len items' q' :
  run ix CAPACITY (new_queue CAPACITY junk) calls [] []
  = Done (q, pushed, popped) ->
  pop_range ix CAPACITY q dest len = Done (true, items', q') ->
  transferred items' len
  = take (Z.to_nat len) (drop (length popped) pushed).
Proof.
  intros Hrun Hpop.
  apply (run_fifo ix CAPACITY k Hk HC HkW) in Hrun;
    [| apply (new_queue_fifo ix CAPACITY k Hk HC)].
  apply (pop_range_fifo ix CAPACITY k Hk HC HkW _ _ _ _ _ _ _ Hrun) in Hpop.
  destruct Hpop as [(R & _ & _ & _ & _ & _ & Hprefix & _) Hlen].
  rewrite <- (take_drop (Z.to_nat R) pushed), <- Hprefix.
  rewrite <- app_assoc, drop_app_length, take_app_length'; [reflexivity |].
  symmetry. exact Hlen.
Qed.

End Contents.

Lemma slots_cycle_with_period_capacity_witness :
  slot_of U8 8 253 1 <> slot_of U8 8 253 6.
Proof.
  apply (proj1 (slots_cycle_with_period_capacity U8 8 3
                  ltac:(lia) eq_refl ltac:(reflexivity) 253 1 6)); lia.
Defined.

Lemma push_range_stores_witness :
  exists q',
    push_range U8 8 (mkQueue [1; 2; 3; 4; 5; 6; 7; 8] 254 250) [9; 10; 11] 3
    = Done (true, q') /\
    writeCounter q' = to_index U8 (254 + 3) /\
    readCounter q' = 250 /\
    length (buffer q') = 8%nat /\
    (forall j, 0 <= j < 3 ->
       buffer q' !! Z.to_nat ((254 + j) mod 8) = [9; 10; 11] !! Z.to_nat j) /\
    (forall s : nat,
       (forall j, 0 <= j < 3 -> Z.of_nat s <> (254 + j) mod 8) ->
       buffer q' !! s = [1; 2; 3; 4; 5; 6; 7; 8] !! s).
Proof.
  apply (push_range_stores U8 8 3 ltac:(lia) eq_refl ltac:(reflexivity)
           (mkQueue [1; 2; 3; 4; 5; 6; 7; 8] 254 250) [9; 10; 11] 3).
  - split; simpl; lia.
  - reflexivity.
  - unfold INT32_MAX. lia.
  - vm_compute. discriminate.
  - simpl. lia.
Defined.

Lemma size_counts_elements_in_flight_witness :
  exists q pushed popped,
    run U8 8 (new_queue 8 (fun _ => 0)) wrap_calls [] []
    = Done (q, pushed, popped) /\
    size U8 q = Z.of_nat (length pushed) - Z.of_nat (length popped) /\
    Z.of_nat (length (buffer q)) = 8 /\
    counters_ok U8 q.
Proof.
  let r := eval vm_compute in
             (run U8 8 (new_queue 8 (fun _ => 0)) wrap_calls [] []) in
  match r with
  | Done (?q, ?ps, ?pp) =>
    assert (Hrun : run U8 8 (new_queue 8 (fun _ => 0)) wrap_calls [] []
                   = Done (q, ps, pp)) by (vm_compute; reflexivity);
    exists q, ps, pp;
    split; [exact Hrun |];
    apply (size_counts_elements_in_flight U8 8 3
             ltac:(lia) eq_refl ltac:(reflexivity)
             (fun _ => 0) wrap_calls q ps pp Hrun)
  end.
Defined.

Lemma pop_range_delivers_oldest_witness :
  transferred [3; 4; 5; 0] 3 = take 3 (drop 2 [1; 2; 3; 4; 5; 6]).
Proof.
  apply (pop_range_delivers_oldest U8 8 3
           ltac:(lia) eq_refl ltac:(reflexivity)
           (fun _ => 0)
           [Push [1; 2; 3; 4; 5; 6] 6; Pop [0; 0] 2]
           (mkQueue [1; 2; 3; 4; 5; 6; 0; 0] 6 2)
           [1; 2; 3; 4; 5; 6] [1; 2]
           [0; 0; 0; 0] 3 [3; 4; 5; 0]
           (mkQueue [1; 2; 3; 4; 5; 6; 0; 0] 6 5));
    vm_compute; reflexivity.
Defined.

Lemma isPowerOfTwo_spec_witness :
  isPowerOfTwo 64 = true <-> 64 = 0 \/ exists k, 0 <= k < 32 /\ 64 = 2 ^ k.
Proof. apply (isPowerOfTwo_spec 64). lia. Defined.

Lemma pop_range_succeeds_witness :
  exists items' q',
    pop_range U8 8 (mkQueue [1; 2; 3; 4; 5; 6; 7; 8] 4 254) [0; 0; 0; 0] 3
    = Done (true, items', q') /\
    readCounter q' = to_index U8 (254 + 3) /\
    length items' = 4%nat /\
    (forall j, 0 <= j < 3 ->
       items' !! Z.to_nat j
       = [1; 2; 3; 4; 5; 6; 7; 8] !! Z.to_nat (slot_of U8 8 254 j)) /\
    drop (Z.to_nat 3) items' = drop (Z.to_nat 3) [0; 0; 0; 0].
Proof.
  apply (pop_range_succeeds U8 8 3 ltac:(lia) eq_refl
           (mkQueue [1; 2; 3; 4; 5; 6; 7; 8] 4 254) [0; 0; 0; 0] 3).
  - split; simpl; lia.
  - reflexivity.
  - unfold INT32_MAX. lia.
  - vm_compute. discriminate.
  - simpl. lia.
Defined.

Lemma push_range_fails_iff_in_reach_witness :
  push_range U8 8 (mkQueue [1; 2; 3; 4; 5; 6; 7; 8] 4 254) [9; 10; 11] 3
  = Done (false, mkQueue [1; 2; 3; 4; 5; 6; 7; 8] 4 254) <->
  8 < size U8 (mkQueue [1; 2; 3; 4; 5; 6; 7; 8] 4 254) + 3.
Proof.
  apply (push_range_fails_iff_in_reach U8 8 3 ltac:(lia) eq_refl
           (mkQueue [1; 2; 3; 4; 5; 6; 7; 8] 4 254) [9; 10; 11] 3).
  - unfold INT32_MAX. lia.
  - vm_compute. discriminate.
Defined.

(** ** Capacities at the edges of the check *)

Section EdgeCapacities.

Context {T : Type}.
Variable ix : index_type.

Implicit Types (q : LockFreeQueue T) (items pushed popped : list T) (len : Z).

Lemma u32_within_common : 2 ^ 32 <= 2 ^ Z.max 32 (index_bits ix).
Proof. apply Z.pow_le_mono_r; lia. Qed.

Lemma run_capacity_zero calls : forall q pushed popped q' pushed' popped',
  size ix q = 0 ->
  run ix 0 q calls pushed popped = Done (q', pushed', popped') ->
  q' = q /\ pushed' = pushed /\ popped' = popped.
Proof.
  induction calls as [| [items len | items len] calls IH];
    intros q pushed popped q' pushed' popped' Hq H; simpl in H.
  - injection H as <- <- <-. auto.
  - destruct (push_range _ _ _ _ _) as [[b q1] | |] eqn:Hpush;
      try discriminate.
    apply push_range_done in Hpush as [(-> & _ & ->) | (-> & Hcap & Hloop)].
    { apply IH; assumption. }
    rewrite Hq, Z.add_0_l in Hcap.
    assert (Hlen : len <= 0).
    { destruct (Z.le_gt_cases len 0) as [| Hpos]; [assumption |].
      destruct (Z.le_gt_cases len INT32_MAX) as [Hreach | Hfar].
      - pose proof u32_within_common. unfold INT32_MAX in Hreach.
        unfold to_common in Hcap. rewrite Z.mod_small in Hcap; lia.
      - destruct (push_loop_overflows ix 0 (Z.to_nat len) len 0 items q)
          as [f Hf]; [unfold INT32_MAX; lia | lia | unfold INT32_MAX in *; lia |].
        rewrite Hf in Hloop. discriminate. }
    rewrite push_loop_nop in Hloop by (rewrite to_u32_small; lia).
    injection Hloop as <-. unfold transferred in H.
    replace (Z.to_nat len) with 0%nat in H by lia.
    rewrite take_0, app_nil_r in H. apply IH; assumption.
  - destruct (pop_range _ _ _ _ _) as [[[b items1] q1] | |] eqn:Hpop;
      try discriminate.
    apply pop_range_done in Hpop as [(-> & _ & _ & ->) | (-> & Hcap & Hloop)].
    { apply IH; assumption. }
    rewrite Hq in Hcap.
    rewrite pop_loop_nop in Hloop by (rewrite to_u32_small; lia).
    injection Hloop as <- <-. unfold transferred in H.
    replace (Z.to_nat len) with 0%nat in H by lia.
    rewrite take_0, app_nil_r in H. apply IH; assumption.
Qed.

(** X10. A capacity of zero passes the [static_assert]; the queue it gives
    never accepts and never delivers an element: whatever calls return,
    nothing has been pushed, nothing has been popped and the queue is as
    it was constructed, with an empty backing array. *)
Theorem capacity_zero_transfers_nothing (junk : nat -> T) calls q pushed popped :
  run ix 0 (new_queue 0 junk) calls [] [] = Done (q, pushed, popped) ->
  pushed = [] /\ popped = [] /\ q = mkQueue [] 0 0.
Proof.
  intros H. apply run_capacity_zero in H as (-> & -> & ->).
  - auto.
  - rewrite size_eq. simpl. apply Zmod_0_l.
Qed.

(** X11. A capacity equal to the number of values of the index type also
    passes the [static_assert], and then a push that fills the queue wraps
    [size()] to zero: the full queue reports itself empty. *)
Theorem full_queue_reads_empty CAPACITY q items len q' :
  CAPACITY = 2 ^ index_bits ix ->
  counters_ok ix q ->
  0 < len ->
  size ix q + len = CAPACITY ->
  push_range ix CAPACITY q items len = Done (true, q') ->
  size ix q' = 0.
Proof.
  intros HC [Hw Hr] Hlen Hfull H.
  apply push_range_done in H as [(Hb & _) | (_ & _ & Hloop)]; [discriminate |].
  pose proof (push_loop_frame _ _ _ _ _ _ _ _ Hloop) as Hframe.
  apply push_loop_done_spec in Hloop as (_ & H2 & _);
    [| unfold INT32_MAX; lia | lia | assumption].
  rewrite Z.sub_0_r in H2.
  rewrite (size_after_push ix q q' len Hframe H2), Hfull, HC.
  unfold to_index. apply Z.mod_same.
  pose proof (index_modulus_pos ix). lia.
Qed.

End EdgeCapacities.

Lemma capacity_zero_transfers_nothing_witness :
  ([] : list Z) = [] /\ ([] : list Z) = [] /\
  mkQueue ([] : list Z) 0 0 = mkQueue [] 0 0.
Proof.
  apply (capacity_zero_transfers_nothing U32 (fun _ => 0)
           [Push [1; 2] 2; Pop [0] 1; Push [] 0; Pop [] 0]
           (mkQueue [] 0 0) [] []).
  vm_compute. reflexivity.
Defined.

Lemma full_queue_reads_empty_witness :
  size U8 (mkQueue (map Z.of_nat (seq 1 256)) 0 0) = 0.
Proof.
  apply (full_queue_reads_empty U8 256 (new_queue 256 (fun _ => 0))
           (map Z.of_nat (seq 1 256)) 256).
  - reflexivity.
  - split; simpl; lia.
  - lia.
  - vm_compute. reflexivity.
  - vm_compute. reflexivity.
Defined.
